(** * StoryWeaver: the graph viewer of the dialogue tree

    A shallow embedding of [GraphViewer] (the graph builder, the drag
    handlers, the per-tick edge geometry and the label rules) and of the
    record types of [types.ts].

    Conventions of the embedding:
    - a JavaScript string is a [string]; [length] and [substring] count its
      code units;
    - a JavaScript number that holds a coordinate or a simulation scalar is a
      real number and the operations on it are exact; where a statement
      depends on rounding, [Rounded] rounds the result of every operation
      and [Binary64] computes on binary64 numbers;
    - [Map] and [Set] are stdpp's [gmap] and [gset];
    - [console.warn] and the [onError] callback are events of a trace;
    - [Math.random] is a sequence of draws read through a counter;
    - the d3 simulation object is a record holding the fields the viewer
      reads and writes through d3's accessors. *)

From Stdlib Require Import Reals Lra Lia Ascii.
From Corelib Require PrimFloat FloatOps SpecFloat.
From stdpp Require Import gmap strings list pretty.

Set Warnings "-clear-no-such-hyp".

(** Equality of real numbers is decided classically, as [===] decides it
    on numbers. *)
#[global] Instance R_eq_dec : EqDecision R := Req_dec_T.

(** ** Records of [types.ts] *)

Record DialogueChoice := mkChoice {
  c_text : string;
  c_nextId : string;
  c_condition : option string
}.

(** [speaker] is read through [d.speaker || 'Narrator'], so an absent one is
    allowed; [choices] is optional in the interface. *)
Record DialogueNode := mkDialogue {
  d_id : string;
  d_speaker : option string;
  d_text : string;
  d_choices : option (list DialogueChoice)
}.

(** [GraphNode extends d3.SimulationNodeDatum]: [vx], [vy] are the velocity
    fields of the datum; [fx], [fy] are [number | null | undefined]. *)
Record GraphNode := mkNode {
  n_id : string;
  n_speaker : string;
  n_text : string;
  n_x : R;
  n_y : R;
  n_vx : R;
  n_vy : R;
  n_fx : option R;
  n_fy : option R
}.

Record GraphLink := mkLink {
  l_source : string;
  l_target : string;
  l_label : string;
  l_bidirectional : bool
}.

(** What the viewer can do besides drawing. *)
Inductive Effect :=
| ConsoleWarn (msg : string)
| OnError (e : option string).

Definition isOnError (e : Effect) : bool :=
  match e with OnError _ => true | ConsoleWarn _ => false end.

Definition isConsoleWarn (e : Effect) : bool :=
  match e with ConsoleWarn _ => true | OnError _ => false end.

(** ** Graph builder *)

Module Builder.

(** [d.speaker || 'Narrator']: undefined and the empty string are falsy. *)
Definition speakerOrDefault (s : option string) : string :=
  match s with
  | None => "Narrator"
  | Some EmptyString => "Narrator"
  | Some s' => s'
  end.

(** One node of [data.map(d => ({...}))]: two draws of [Math.random], first
    for [x], then for [y]. [k] is the number of draws made so far. *)
Definition mkGraphNode (width height : R) (rand : nat → R) (k : nat)
    (d : DialogueNode) : GraphNode :=
  {| n_id := d_id d;
     n_speaker := speakerOrDefault (d_speaker d);
     n_text := d_text d;
     n_x := (width / 2 + (rand k - 0.5) * 50)%R;
     n_y := (height / 2 + (rand (S k) - 0.5) * 50)%R;
     n_vx := 0%R; n_vy := 0%R;
     n_fx := None; n_fy := None |}.

Fixpoint mkNodesFrom (width height : R) (rand : nat → R) (k : nat)
    (data : list DialogueNode) : list GraphNode :=
  match data with
  | [] => []
  | d :: rest =>
      mkGraphNode width height rand k d
        :: mkNodesFrom width height rand (S (S k)) rest
  end.

Definition mkNodes (width height : R) (rand : nat → R)
    (data : list DialogueNode) : list GraphNode :=
  mkNodesFrom width height rand 0 data.

(** [new Map(nodes.map(n => [n.id, n]))]: entries are set in order, a later
    node with the same id replaces the earlier one. *)
Definition mkNodeMap (nodes : list GraphNode) : gmap string GraphNode :=
  foldl (λ m n, <[n_id n := n]> m) ∅ nodes.

Definition has (m : gmap string GraphNode) (k : string) : bool :=
  bool_decide (is_Some (m !! k)).

(** The template literal [`${a}|${b}`]. *)
Definition linkKey (a b : string) : string := a +:+ "|" +:+ b.

(** First pass: [linkExistenceMap]. *)
Definition addChoiceKey (nodeMap : gmap string GraphNode) (src : string)
    (s : gset string) (choice : DialogueChoice) : gset string :=
  if has nodeMap (c_nextId choice)
  then {[ linkKey src (c_nextId choice) ]} ∪ s
  else s.

Definition addNodeKeys (nodeMap : gmap string GraphNode)
    (s : gset string) (node : DialogueNode) : gset string :=
  match d_choices node with
  | Some cs => foldl (addChoiceKey nodeMap (d_id node)) s cs
  | None => s
  end.

Definition mkLinkExistenceMap (nodeMap : gmap string GraphNode)
    (data : list DialogueNode) : gset string :=
  foldl (addNodeKeys nodeMap) ∅ data.

(** Second pass: [links.push] or [console.warn]. The state is the array of
    links and the trace, both in the order of the calls. *)
Definition BuildState : Type := list GraphLink * list Effect.

Definition missingTarget (nextId : string) : Effect :=
  ConsoleWarn ("Missing target node: " +:+ nextId).

Definition pushChoice (nodeMap : gmap string GraphNode)
    (linkExistenceMap : gset string) (src : string)
    (st : BuildState) (choice : DialogueChoice) : BuildState :=
  if has nodeMap (c_nextId choice)
  then
    let isBidirectional :=
      bool_decide (linkKey (c_nextId choice) src ∈ linkExistenceMap) in
    (st.1 ++ [ {| l_source := src;
                  l_target := c_nextId choice;
                  l_label := c_text choice;
                  l_bidirectional := isBidirectional |} ],
     st.2)
  else (st.1, st.2 ++ [ missingTarget (c_nextId choice) ]).

Definition pushNode (nodeMap : gmap string GraphNode)
    (linkExistenceMap : gset string)
    (st : BuildState) (node : DialogueNode) : BuildState :=
  match d_choices node with
  | Some cs => foldl (pushChoice nodeMap linkExistenceMap (d_id node)) st cs
  | None => st
  end.

Definition mkLinks (nodeMap : gmap string GraphNode)
    (linkExistenceMap : gset string) (data : list DialogueNode) : BuildState :=
  foldl (pushNode nodeMap linkExistenceMap) ([], []) data.

(** Step 1 of the render effect, "Prepare Data for D3". *)
Record Graph := mkGraph {
  g_nodes : list GraphNode;
  g_links : list GraphLink;
  g_trace : list Effect
}.

Definition build (width height : R) (rand : nat → R)
    (data : list DialogueNode) : Graph :=
  let nodes := mkNodes width height rand data in
  let nodeMap := mkNodeMap nodes in
  let linkExistenceMap := mkLinkExistenceMap nodeMap data in
  let st := mkLinks nodeMap linkExistenceMap data in
  {| g_nodes := nodes; g_links := st.1; g_trace := st.2 |}.

End Builder.

(** ** The d3 simulation, as far as the viewer drives it *)

Module D3.

Record Simulation := mkSim {
  sim_nodes : list GraphNode;
  (** ["link"]: the links and the target distance *)
  sim_link : option (list GraphLink * R);
  (** ["charge"]: the strength of the many-body force *)
  sim_charge : option R;
  (** ["center"] *)
  sim_center : option (R * R);
  (** ["collide"]: radius and iterations *)
  sim_collide : option (R * nat);
  sim_alpha : R;
  sim_alphaTarget : R;
  (** the internal timer is ticking *)
  sim_running : bool
}.

(** [d3.forceSimulation(nodes)]: alpha starts at its maximum, 1, and the
    timer is started. *)
Definition forceSimulation (nodes : list GraphNode) : Simulation :=
  {| sim_nodes := nodes; sim_link := None; sim_charge := None;
     sim_center := None; sim_collide := None;
     sim_alpha := 1; sim_alphaTarget := 0; sim_running := true |}.

Definition forceLink (links : list GraphLink) (distance : R)
    (sim : Simulation) : Simulation :=
  {| sim_nodes := sim_nodes sim; sim_link := Some (links, distance);
     sim_charge := sim_charge sim; sim_center := sim_center sim;
     sim_collide := sim_collide sim; sim_alpha := sim_alpha sim;
     sim_alphaTarget := sim_alphaTarget sim; sim_running := sim_running sim |}.

Definition forceCharge (strength : R) (sim : Simulation) : Simulation :=
  {| sim_nodes := sim_nodes sim; sim_link := sim_link sim;
     sim_charge := Some strength; sim_center := sim_center sim;
     sim_collide := sim_collide sim; sim_alpha := sim_alpha sim;
     sim_alphaTarget := sim_alphaTarget sim; sim_running := sim_running sim |}.

Definition forceCenter (cx cy : R) (sim : Simulation) : Simulation :=
  {| sim_nodes := sim_nodes sim; sim_link := sim_link sim;
     sim_charge := sim_charge sim; sim_center := Some (cx, cy);
     sim_collide := sim_collide sim; sim_alpha := sim_alpha sim;
     sim_alphaTarget := sim_alphaTarget sim; sim_running := sim_running sim |}.

Definition forceCollide (radius : R) (iterations : nat)
    (sim : Simulation) : Simulation :=
  {| sim_nodes := sim_nodes sim; sim_link := sim_link sim;
     sim_charge := sim_charge sim; sim_center := sim_center sim;
     sim_collide := Some (radius, iterations); sim_alpha := sim_alpha sim;
     sim_alphaTarget := sim_alphaTarget sim; sim_running := sim_running sim |}.

Definition alpha (a : R) (sim : Simulation) : Simulation :=
  {| sim_nodes := sim_nodes sim; sim_link := sim_link sim;
     sim_charge := sim_charge sim; sim_center := sim_center sim;
     sim_collide := sim_collide sim; sim_alpha := a;
     sim_alphaTarget := sim_alphaTarget sim; sim_running := sim_running sim |}.

Definition alphaTarget (a : R) (sim : Simulation) : Simulation :=
  {| sim_nodes := sim_nodes sim; sim_link := sim_link sim;
     sim_charge := sim_charge sim; sim_center := sim_center sim;
     sim_collide := sim_collide sim; sim_alpha := sim_alpha sim;
     sim_alphaTarget := a; sim_running := sim_running sim |}.

Definition restart (sim : Simulation) : Simulation :=
  {| sim_nodes := sim_nodes sim; sim_link := sim_link sim;
     sim_charge := sim_charge sim; sim_center := sim_center sim;
     sim_collide := sim_collide sim; sim_alpha := sim_alpha sim;
     sim_alphaTarget := sim_alphaTarget sim; sim_running := true |}.

Definition stop (sim : Simulation) : Simulation :=
  {| sim_nodes := sim_nodes sim; sim_link := sim_link sim;
     sim_charge := sim_charge sim; sim_center := sim_center sim;
     sim_collide := sim_collide sim; sim_alpha := sim_alpha sim;
     sim_alphaTarget := sim_alphaTarget sim; sim_running := false |}.

(** A write to the node object at index [i] of the node array. *)
Definition withNode (i : nat) (f : GraphNode → GraphNode)
    (sim : Simulation) : Simulation :=
  {| sim_nodes := alter f i (sim_nodes sim); sim_link := sim_link sim;
     sim_charge := sim_charge sim; sim_center := sim_center sim;
     sim_collide := sim_collide sim; sim_alpha := sim_alpha sim;
     sim_alphaTarget := sim_alphaTarget sim; sim_running := sim_running sim |}.

Definition links (sim : Simulation) : list GraphLink :=
  match sim_link sim with Some (ls, _) => ls | None => [] end.

(** The position update that ends a tick of d3-force: a node with a pinned
    coordinate is put there and loses its velocity, any other node moves by
    its decayed velocity. *)
Definition stepPosition (velocityDecay : R) (d : GraphNode) : GraphNode :=
  let '(x, vx) :=
    match n_fx d with
    | None => ((n_x d + n_vx d * velocityDecay)%R, (n_vx d * velocityDecay)%R)
    | Some fx => (fx, 0%R)
    end in
  let '(y, vy) :=
    match n_fy d with
    | None => ((n_y d + n_vy d * velocityDecay)%R, (n_vy d * velocityDecay)%R)
    | Some fy => (fy, 0%R)
    end in
  {| n_id := n_id d; n_speaker := n_speaker d; n_text := n_text d;
     n_x := x; n_y := y; n_vx := vx; n_vy := vy;
     n_fx := n_fx d; n_fy := n_fy d |}.

End D3.

(** ** The viewer *)

Module Viewer.
Import Builder D3.

(** The component's state: [dimensions], [simulationRef.current], and the
    trace of what it logged or reported. *)
Record State := mkState {
  dimensions : R * R;
  simulationRef : option Simulation;
  trace : list Effect
}.

(** The effect "Update Force without re-rendering graph". *)
Definition updateForce (repulsionForce : R) (st : State) : State :=
  match simulationRef st with
  | Some sim =>
      {| dimensions := dimensions st;
         simulationRef :=
           Some (restart (alpha 0.3 (forceCharge (- repulsionForce) sim)));
         trace := trace st |}
  | None => st
  end.

(** The body of the effect "Render Graph", up to the creation of the
    simulation; the cleanup it returns is in [Lifecycle]. *)
Definition renderGraph (rand : nat → R) (data : list DialogueNode)
    (repulsionForce : R) (st : State) : State :=
  let '(width, height) := dimensions st in
  if bool_decide (data = []) || bool_decide (width = 0%R) then st
  else
    let g := build width height rand data in
    let simulation :=
      forceCollide 80 2
        (forceCenter (width / 2) (height / 2)
          (forceCharge (- repulsionForce)
            (forceLink (g_links g) 250
              (forceSimulation (g_nodes g))))) in
    {| dimensions := dimensions st;
       simulationRef := Some simulation;
       trace := trace st ++ g_trace g |}.

(** The drag handlers. [active] is [event.active]; [i] is the index of the
    dragged node object [d] in the node array. *)
Definition dragstarted (active : nat) (i : nat) (simulation : Simulation)
    : Simulation :=
  let simulation :=
    if decide (active = 0) then restart (alphaTarget 0.3 simulation)
    else simulation in
  withNode i (λ d,
    {| n_id := n_id d; n_speaker := n_speaker d; n_text := n_text d;
       n_x := n_x d; n_y := n_y d; n_vx := n_vx d; n_vy := n_vy d;
       n_fx := Some (n_x d); n_fy := Some (n_y d) |}) simulation.

Definition dragged (event_x event_y : R) (i : nat) (simulation : Simulation)
    : Simulation :=
  withNode i (λ d,
    {| n_id := n_id d; n_speaker := n_speaker d; n_text := n_text d;
       n_x := n_x d; n_y := n_y d; n_vx := n_vx d; n_vy := n_vy d;
       n_fx := Some event_x; n_fy := Some event_y |}) simulation.


End Viewer.

(** ** Per-tick edge geometry *)

Module Geometry.
Import Builder D3 Viewer.

Inductive Error :=
| DivisionByZero
| NodeNotFound (id : string).

Inductive Result (A : Type) :=
| Ok (a : A)
| Throw (e : Error).
Arguments Ok {A} a.
Arguments Throw {A} e.

#[global] Instance Result_bind : MBind Result := λ A B k r,
  match r with Ok a => k a | Throw e => Throw e end.

(** The quotient [a / b], with a zero divisor recorded as a failure so that
    a division the code can reach with [b = 0] shows in the result.
    (JavaScript itself yields an infinity or NaN there.) *)
Definition div (a b : R) : Result R :=
  if decide (b = 0%R) then Throw DivisionByZero else Ok (a / b)%R.

(** The commands of an SVG path; the empty string is the empty list. *)
Inductive PathCmd :=
| M (x y : R)
| L (x y : R)
| A (rx ry rotation : R) (largeArc sweep : bool) (x y : R).

Definition Path : Type := list PathCmd.

(** The callback of [linkPath.attr("d", ...)] on a link whose ends are the
    node objects [source] and [target]. *)
Definition linkPath (source target : GraphNode) (bidirectional : bool)
    : Result Path :=
  let dx := (n_x target - n_x source)%R in
  let dy := (n_y target - n_y source)%R in
  let dist := sqrt (dx * dx + dy * dy) in
  if decide (dist = 0%R) then Ok []
  else
    ux ← div dx dist;
    uy ← div dy dist;
    let radius := 28%R in
    let sx := (n_x source + ux * radius)%R in
    let sy := (n_y source + uy * radius)%R in
    let tx := (n_x target - ux * radius)%R in
    let ty := (n_y target - uy * radius)%R in
    let ddist := sqrt ((tx - sx) ^ 2 + (ty - sy) ^ 2) in
    if bidirectional
    then Ok [M sx sy; A ddist ddist 0 false false tx ty]
    else Ok [M sx sy; L tx ty].

(** d3's link force replaces the ids held in [source] and [target] by the
    node objects with these ids, taken from a [Map] of the node array. *)
Definition find (nodes : list GraphNode) (id : string) : Result GraphNode :=
  match mkNodeMap nodes !! id with
  | Some n => Ok n
  | None => Throw (NodeNotFound id)
  end.

Definition tickLinkPath (simulation : Simulation) (l : GraphLink)
    : Result Path :=
  source ← find (sim_nodes simulation) (l_source l);
  target ← find (sim_nodes simulation) (l_target l);
  linkPath source target (l_bidirectional l).

(** Where a path starts and where it ends. *)
Definition endOf (c : PathCmd) : R * R :=
  match c with
  | M x y => (x, y)
  | L x y => (x, y)
  | A _ _ _ _ _ x y => (x, y)
  end.

Definition pathStart (p : Path) : option (R * R) := endOf <$> head p.
Definition pathEnd (p : Path) : option (R * R) := endOf <$> last p.

Definition isArc (p : Path) : bool :=
  match last p with Some (A _ _ _ _ _ _ _) => true | _ => false end.

Definition distance (p q : R * R) : R :=
  sqrt ((p.1 - q.1) ^ 2 + (p.2 - q.2) ^ 2).

Definition center (d : GraphNode) : R * R := (n_x d, n_y d).

End Geometry.

(** ** Labels *)

Module Labels.

(** [d.label.length > 25 ? d.label.substring(0, 25) + '...' : d.label] *)
Definition linkText (label : string) : string :=
  if decide (25 < String.length label)
  then String.substring 0 25 label +:+ "..."
  else label.

Definition quote : string := String (ascii_of_nat 34) EmptyString.

(** [d.text.length > 25 ? `"${d.text.substring(0, 25)}..."` : `"${d.text}"`] *)
Definition nodeContentText (text : string) : string :=
  if decide (25 < String.length text)
  then quote +:+ String.substring 0 25 text +:+ "..." +:+ quote
  else quote +:+ text +:+ quote.

End Labels.

(** ** Definitions used in the statements *)

Import Builder D3 Viewer Geometry Labels.

Definition ids (data : list DialogueNode) : list string := d_id <$> data.

Definition choicesOf (node : DialogueNode) : list DialogueChoice :=
  default [] (d_choices node).

(** The link pushed for a choice that resolves. *)
Definition linkOf (linkExistenceMap : gset string) (src : string)
    (choice : DialogueChoice) : GraphLink :=
  {| l_source := src;
     l_target := c_nextId choice;
     l_label := c_text choice;
     l_bidirectional :=
       bool_decide (linkKey (c_nextId choice) src ∈ linkExistenceMap) |}.

Definition nodeLinks nm lem (node : DialogueNode) : list GraphLink :=
  linkOf lem (d_id node)
    <$> filter (λ c, has nm (c_nextId c) = true) (choicesOf node).

Definition nodeWarnings nm (node : DialogueNode) : list Effect :=
  (λ c, missingTarget (c_nextId c))
    <$> filter (λ c, has nm (c_nextId c) ≠ true) (choicesOf node).

(** All [(sourceId, targetId)] pairs whose target is the id of a node, in
    iteration order, and the set of them. *)
Definition resolvedPairs (data : list DialogueNode) : list (string * string) :=
  data ≫= λ node,
    (λ c, (d_id node, c_nextId c))
      <$> filter (λ c, c_nextId c ∈ ids data) (choicesOf node).

Definition pairSet (data : list DialogueNode) : gset (string * string) :=
  list_to_set (resolvedPairs data).

(** The string holds the separator of [linkKey]. *)
Fixpoint containsSep (s : string) : bool :=
  match s with
  | EmptyString => false
  | String a s' => bool_decide (a = "|"%char) || containsSep s'
  end.

(** The node with the choices whose target is not in [known] removed. *)
Definition keepResolved (known : list string) (node : DialogueNode) : DialogueNode :=
  {| d_id := d_id node;
     d_speaker := d_speaker node;
     d_text := d_text node;
     d_choices := filter (λ c, c_nextId c ∈ known) <$> d_choices node |}.

Definition dropDangling (data : list DialogueNode) : list DialogueNode :=
  keepResolved (ids data) <$> data.

(** One warning per dangling choice, in iteration order. *)
Definition danglingWarnings (data : list DialogueNode) : list Effect :=
  data ≫= λ node,
    (λ c, missingTarget (c_nextId c))
      <$> filter (λ c, c_nextId c ∉ ids data) (choicesOf node).

Definition endpoints (l : GraphLink) : string * string :=
  (l_source l, l_target l).

(** The caller is told something when [onError] is invoked. *)
Definition reportsToCaller (events : list Effect) : Prop :=
  ∃ e, OnError e ∈ events.

Definition ghostData : list DialogueNode :=
  [ mkDialogue "a" None "hi" (Some [mkChoice "go" "ghost" None]) ].

Definition freshState (width height : R) : State :=
  {| dimensions := (width, height); simulationRef := None; trace := [] |}.

(** The two-node scenario with one more choice that leads nowhere. *)
Definition mixedData : list DialogueNode :=
  [ mkDialogue "a" None "hi"
      (Some [mkChoice "go" "b" None; mkChoice "lost" "ghost" None]);
    mkDialogue "b" None "bye" (Some [mkChoice "back" "a" None]) ].

(** A simulation that has cooled down and stopped, on the two-node graph
    of the scenario. *)
Definition idleSimulation : Simulation :=
  stop (alpha 0
    (forceCollide 80 2
      (forceCenter 400 300
        (forceCharge (-1500)
          (forceLink [mkLink "a" "b" "go" true; mkLink "b" "a" "back" true] 250
            (forceSimulation
               [ mkNode "a" "Narrator" "hi" 10 20 0 0 None None;
                 mkNode "b" "Narrator" "bye" 300 40 0 0 None None ])))))).

(** Two nodes, one link from ["x"] to ["x|x"] and none back. *)
Definition collidingIds : list DialogueNode :=
  [ mkDialogue "x" None "t" (Some [mkChoice "go" "x|x" None]);
    mkDialogue "x|x" None "u" None ].

Definition selfLoopData : list DialogueNode :=
  [ mkDialogue "a" None "hi" (Some [mkChoice "again" "a" None]) ].

(** The simulation the render sets up for [selfLoopData] in a viewport of
    800 by 600, every draw being 0.5. *)
Definition selfLoopSimulation : Simulation :=
  let g := build 800 600 (λ _, 0.5%R) selfLoopData in
  forceCollide 80 2
    (forceCenter (800 / 2) (600 / 2)
      (forceCharge (-1500)
        (forceLink (g_links g) 250 (forceSimulation (g_nodes g))))).

(** ** Per-tick anchor of the edge label *)

Module Anchor.

(** [x || 1] on a number: zero is falsy. *)
Definition orOne (x : R) : R := if decide (x = 0%R) then 1%R else x.

(** [d.bidirectional ? -Math.max(25, dist * 0.15) : -15] *)
Definition labelOffset (bidirectional : bool) (dist : R) : R :=
  if bidirectional then (- Rmax 25 (dist * 0.15))%R else (-15)%R.

(** The callback of [linkText.attr("x", ...)]. *)
Definition linkTextX (source target : GraphNode) (bidirectional : bool)
    : Result R :=
  let dx := (n_x target - n_x source)%R in
  let dy := (n_y target - n_y source)%R in
  let dist := orOne (sqrt (dx * dx + dy * dy)) in
  let midX := ((n_x source + n_x target) / 2)%R in
  nx ← div dy dist;
  let offset := labelOffset bidirectional dist in
  Ok (midX + nx * offset)%R.

(** The callback of [linkText.attr("y", ...)]. *)
Definition linkTextY (source target : GraphNode) (bidirectional : bool)
    : Result R :=
  let dx := (n_x target - n_x source)%R in
  let dy := (n_y target - n_y source)%R in
  let dist := orOne (sqrt (dx * dx + dy * dy)) in
  let midY := ((n_y source + n_y target) / 2)%R in
  ny ← div (- dx) dist;
  let offset := labelOffset bidirectional dist in
  Ok (midY + ny * offset)%R.

End Anchor.

(** ** The parse effect of [App] *)

Module App.

(** What the checks read off a property of an item: whether its value is
    truthy and, if so, the string a template literal makes of it. *)
Inductive Field :=
| Falsy
| Truthy (shown : string).

(** What the checks read off one item of the loaded array. Reading a
    property of [null] or [undefined] throws a [TypeError] with some
    message; any other value has an [id] and a [text], possibly
    [undefined]. *)
Inductive Item :=
| Nullish (message : string)
| Obj (id text : Field).

(** The outcome of [yaml.load(yamlContent)]. *)
Inductive Loaded :=
| LoadThrows (message : string)
| NotArray
| Items (items : list Item).

(** The body of [parsed.forEach((node, index) => ...)]: the message of the
    error it throws, if it throws. *)
Definition checkNode (index : nat) (node : Item) : option string :=
  match node with
  | Nullish message => Some message
  | Obj Falsy _ =>
      Some ("Node at index " +:+ pretty index +:+ " is missing 'id'")
  | Obj (Truthy id) Falsy => Some ("Node '" +:+ id +:+ "' is missing 'text'")
  | Obj (Truthy _) (Truthy _) => None
  end.

Fixpoint forEachFrom (index : nat) (items : list Item) : option string :=
  match items with
  | [] => None
  | node :: rest =>
      match checkNode index node with
      | Some message => Some message
      | None => forEachFrom (S index) rest
      end
  end.

(** The [try] block: the message of the error thrown, or the array. *)
Definition tryParse (loaded : Loaded) : string + list Item :=
  match loaded with
  | LoadThrows message => inl message
  | NotArray => inl "Root must be a YAML list (array) of nodes."
  | Items items =>
      match forEachFrom 0 items with
      | Some message => inl message
      | None => inr items
      end
  end.

(** The state of [App] and what [console.error] received. *)
Record State := mkState {
  parsedData : list Item;
  error : option string;
  isDarkMode : bool;
  repulsion : R;
  console : list string
}.

(** The effect "Parse YAML". *)
Definition parseEffect (loaded : Loaded) (st : State) : State :=
  match tryParse loaded with
  | inr parsed =>
      {| parsedData := parsed; error := None;
         isDarkMode := isDarkMode st; repulsion := repulsion st;
         console := console st |}
  | inl message =>
      {| parsedData := parsedData st;
         error := Some (if decide (message = EmptyString)
                        then "Invalid YAML format" else message);
         isDarkMode := isDarkMode st; repulsion := repulsion st;
         console := console st ++ [message] |}
  end.

(** An item that passes both checks. *)
Definition wellFormed (node : Item) : Prop :=
  ∃ id text, node = Obj (Truthy id) (Truthy text).

End App.

(** ** The end points of a path in binary64 *)

Module Binary64.
Import PrimFloat.




End Binary64.

(** ** The path callback with every operation rounded *)

Module Rounded.

Section Operations.

(** [rnd x] is the number an arithmetic operation returns when its exact
    result is [x]; [pow2 x] is what [x ** 2] returns, which the language
    leaves to the implementation. *)
Variable rnd : R → R.
Variable pow2 : R → R.

Definition fsub (a b : R) : R := rnd (a - b).
Definition fadd (a b : R) : R := rnd (a + b).
Definition fmul (a b : R) : R := rnd (a * b).
Definition fsqrt (a : R) : R := rnd (sqrt a).

Definition fdiv (a b : R) : Result R :=
  if decide (b = 0%R) then Throw DivisionByZero else Ok (rnd (a / b)).

(** The callback of [linkPath.attr("d", ...)], as [Geometry.linkPath]. *)
Definition linkPath (source target : GraphNode) (bidirectional : bool)
    : Result Path :=
  let dx := fsub (n_x target) (n_x source) in
  let dy := fsub (n_y target) (n_y source) in
  let dist := fsqrt (fadd (fmul dx dx) (fmul dy dy)) in
  if decide (dist = 0%R) then Ok []
  else
    ux ← fdiv dx dist;
    uy ← fdiv dy dist;
    let radius := 28%R in
    let sx := fadd (n_x source) (fmul ux radius) in
    let sy := fadd (n_y source) (fmul uy radius) in
    let tx := fsub (n_x target) (fmul ux radius) in
    let ty := fsub (n_y target) (fmul uy radius) in
    let ddist := fsqrt (fadd (pow2 (fsub tx sx)) (pow2 (fsub ty sy))) in
    if bidirectional
    then Ok [M sx sy; A ddist ddist 0 false false tx ty]
    else Ok [M sx sy; L tx ty].

End Operations.

End Rounded.

(** ** The render effect with its cleanup *)

Module Lifecycle.

(** The state of the component and whether the last run of the effect
    "Render Graph" returned its cleanup [() => simulation.stop()]: it does
    when it gets past the guard. React calls a returned cleanup before it
    runs the effect again. *)
Record Mounted := mkMounted {
  state : State;
  cleanupPending : bool
}.

(** The cleanup stops the simulation of the run that returned it, which is
    the one [simulationRef] holds: only the effect assigns the ref. *)
Definition cleanup (st : State) : State :=
  {| dimensions := dimensions st;
     simulationRef := stop <$> simulationRef st;
     trace := trace st |}.

(** A run of the effect after a change of [data], [dimensions] or
    [isDarkMode]. *)
Definition renderEffect (rand : nat → R) (data : list DialogueNode)
    (repulsionForce : R) (m : Mounted) : Mounted :=
  let st := if cleanupPending m then cleanup (state m) else state m in
  {| state := renderGraph rand data repulsionForce st;
     cleanupPending :=
       negb (bool_decide (data = []) || bool_decide ((dimensions st).1 = 0%R)) |}.

End Lifecycle.

(** ** More definitions used in the statements *)

(** The anchor of a label. *)
Definition labelAnchor (source target : GraphNode) (bidirectional : bool)
    : Result (R * R) :=
  x ← Anchor.linkTextX source target bidirectional;
  y ← Anchor.linkTextY source target bidirectional;
  Ok (x, y).


(** ** Facts about the graph builder *)

Section BuilderFacts.
Import Builder.

Lemma mkNodesFrom_ids width height rand k data :
  n_id <$> mkNodesFrom width height rand k data = ids data.
Proof.
  revert k. induction data as [|d rest IH]; intros k; simpl; [done|].
  by rewrite IH.
Qed.

Lemma mkNodeMap_foldl_is_Some (nodes : list GraphNode) (m : gmap string GraphNode) k :
  is_Some (foldl (λ m n, <[n_id n := n]> m) m nodes !! k)
  ↔ is_Some (m !! k) ∨ k ∈ (n_id <$> nodes).
Proof.
  revert m. induction nodes as [|n rest IH]; intros m; simpl.
  - split; [by left|]. intros [?|H]; [done|]. by apply elem_of_nil in H.
  - rewrite IH, lookup_insert_is_Some', elem_of_cons. naive_solver.
Qed.

Lemma has_mkNodeMap (nodes : list GraphNode) k :
  has (mkNodeMap nodes) k = true ↔ k ∈ (n_id <$> nodes).
Proof.
  unfold has, mkNodeMap. rewrite bool_decide_eq_true, mkNodeMap_foldl_is_Some.
  rewrite lookup_empty. split; [|by right].
  intros [H|H]; [|done]. by destruct H.
Qed.

Lemma has_build_nodeMap width height rand data k :
  has (mkNodeMap (mkNodes width height rand data)) k = true ↔ k ∈ ids data.
Proof. by rewrite has_mkNodeMap; unfold mkNodes; rewrite mkNodesFrom_ids. Qed.

(** The two passes as comprehensions. *)

Lemma addChoiceKey_foldl nm src (cs : list DialogueChoice) (s : gset string) k :
  k ∈ foldl (addChoiceKey nm src) s cs
  ↔ k ∈ s ∨ ∃ c, c ∈ cs ∧ has nm (c_nextId c) = true
                 ∧ k = linkKey src (c_nextId c).
Proof.
  revert s. induction cs as [|c cs IH]; intros s; simpl.
  - split; [by left|]. intros [?|(c & Hc & _)]; [done|].
    by apply elem_of_nil in Hc.
  - rewrite IH. unfold addChoiceKey.
    destruct (has nm (c_nextId c)) eqn:Hh.
    + rewrite elem_of_union, elem_of_singleton. split.
      * intros [[->|?]|(c' & ? & ? & ?)]; [right; exists c|by left|right; exists c'];
          repeat split; try done; set_solver.
      * intros [?|(c' & [->|?]%elem_of_cons & ? & ?)]; [by left; right|by left; left|].
        right. by exists c'.
    + split.
      * intros [?|(c' & ? & ? & ?)]; [by left|right; exists c'].
        repeat split; try done. set_solver.
      * intros [?|(c' & [->|?]%elem_of_cons & ? & ?)]; [by left|congruence|].
        right. by exists c'.
Qed.

Lemma addNodeKeys_foldl nm (data : list DialogueNode) (s : gset string) k :
  k ∈ foldl (addNodeKeys nm) s data
  ↔ k ∈ s ∨ ∃ node c, node ∈ data ∧ c ∈ choicesOf node
                      ∧ has nm (c_nextId c) = true
                      ∧ k = linkKey (d_id node) (c_nextId c).
Proof.
  revert s. induction data as [|d rest IH]; intros s; simpl.
  - split; [by left|]. intros [?|(n & c & Hn & _)]; [done|].
    by apply elem_of_nil in Hn.
  - rewrite IH. unfold addNodeKeys, choicesOf.
    destruct (d_choices d) as [cs|] eqn:Hcs; simpl.
    + rewrite addChoiceKey_foldl. split.
      * intros [[?|(c & ? & ? & ?)]|(n & c & ? & ? & ? & ?)].
        -- by left.
        -- right. exists d, c. rewrite Hcs. repeat split; try done. set_solver.
        -- right. exists n, c. repeat split; try done. set_solver.
      * intros [?|(n & c & [->|?]%elem_of_cons & Hc & ? & ?)].
        -- by left; left.
        -- rewrite Hcs in Hc. left; right. by exists c.
        -- right. by exists n, c.
    + split.
      * intros [?|(n & c & ? & ? & ? & ?)]; [by left|].
        right. exists n, c. repeat split; try done. set_solver.
      * intros [?|(n & c & [->|?]%elem_of_cons & Hc & ? & ?)]; [by left| |].
        -- rewrite Hcs in Hc. by apply elem_of_nil in Hc.
        -- right. by exists n, c.
Qed.

Lemma elem_of_mkLinkExistenceMap nm data k :
  k ∈ mkLinkExistenceMap nm data
  ↔ ∃ node c, node ∈ data ∧ c ∈ choicesOf node
              ∧ has nm (c_nextId c) = true
              ∧ k = linkKey (d_id node) (c_nextId c).
Proof.
  unfold mkLinkExistenceMap. rewrite addNodeKeys_foldl. set_solver.
Qed.

Lemma pushChoice_foldl nm lem src (cs : list DialogueChoice) (st : BuildState) :
  foldl (pushChoice nm lem src) st cs
  = (st.1 ++ (linkOf lem src <$> filter (λ c, has nm (c_nextId c) = true) cs),
     st.2 ++ ((λ c, missingTarget (c_nextId c))
                <$> filter (λ c, has nm (c_nextId c) ≠ true) cs)).
Proof.
  revert st. induction cs as [|c cs IH]; intros [ls ws]; simpl.
  - by rewrite !app_nil_r.
  - rewrite IH. unfold pushChoice. rewrite !filter_cons.
    destruct (has nm (c_nextId c)) eqn:Hh; simpl; by rewrite <- app_assoc.
Qed.

Lemma pushNode_foldl nm lem (data : list DialogueNode) (st : BuildState) :
  foldl (pushNode nm lem) st data
  = (st.1 ++ (data ≫= nodeLinks nm lem), st.2 ++ (data ≫= nodeWarnings nm)).
Proof.
  revert st. induction data as [|d rest IH]; intros [ls ws]; simpl.
  - by rewrite !app_nil_r.
  - rewrite IH. unfold pushNode. change (nodeLinks nm lem d) with (linkOf lem (d_id d) <$> filter (λ c, has nm (c_nextId c) = true) (choicesOf d)). change (nodeWarnings nm d) with ((λ c, missingTarget (c_nextId c)) <$> filter (λ c, has nm (c_nextId c) ≠ true) (choicesOf d)). unfold choicesOf.
    destruct (d_choices d) as [cs|]; simpl.
    + rewrite pushChoice_foldl. simpl. by rewrite <- !app_assoc.
    + done.
Qed.

Lemma mkLinks_eq nm lem data :
  mkLinks nm lem data = (data ≫= nodeLinks nm lem, data ≫= nodeWarnings nm).
Proof. unfold mkLinks. by rewrite pushNode_foldl. Qed.

Lemma build_links width height rand data :
  g_links (build width height rand data)
  = data ≫= nodeLinks (mkNodeMap (mkNodes width height rand data))
              (mkLinkExistenceMap (mkNodeMap (mkNodes width height rand data)) data).
Proof. unfold build. simpl. by rewrite mkLinks_eq. Qed.

Lemma build_trace width height rand data :
  g_trace (build width height rand data)
  = data ≫= nodeWarnings (mkNodeMap (mkNodes width height rand data)).
Proof. unfold build. simpl. by rewrite mkLinks_eq. Qed.

Lemma elem_of_nodeLinks nm lem node l :
  l ∈ nodeLinks nm lem node
  ↔ ∃ c, c ∈ choicesOf node ∧ has nm (c_nextId c) = true
         ∧ l = linkOf lem (d_id node) c.
Proof.
  unfold nodeLinks. rewrite list_elem_of_fmap.
  split; intros (c & H1 & H2).
  - apply list_elem_of_filter in H2 as [? ?]. by exists c.
  - destruct H2 as [? ->]. exists c. split; [done|].
    by apply list_elem_of_filter.
Qed.

Lemma elem_of_build_links width height rand data l :
  l ∈ g_links (build width height rand data)
  ↔ ∃ node c, node ∈ data ∧ c ∈ choicesOf node ∧ c_nextId c ∈ ids data
       ∧ l = linkOf (mkLinkExistenceMap
                       (mkNodeMap (mkNodes width height rand data)) data)
                    (d_id node) c.
Proof.
  rewrite build_links, list_elem_of_bind. split.
  - intros (node & (c & ? & Hh & ?)%elem_of_nodeLinks & ?).
    apply has_build_nodeMap in Hh. by exists node, c.
  - intros (node & c & ? & ? & Hh & ?). exists node. split; [|done].
    apply elem_of_nodeLinks. exists c. by rewrite has_build_nodeMap.
Qed.

(** *** The pair set of the specification *)

Lemma elem_of_pairSet data a b :
  (a, b) ∈ pairSet data
  ↔ ∃ node c, node ∈ data ∧ c ∈ choicesOf node ∧ c_nextId c ∈ ids data
              ∧ a = d_id node ∧ b = c_nextId c.
Proof.
  unfold pairSet, resolvedPairs.
  rewrite elem_of_list_to_set, list_elem_of_bind. split.
  - intros (node & (c & [= -> ->] & [? ?]%list_elem_of_filter)%list_elem_of_fmap & ?).
    by exists node, c.
  - intros (node & c & ? & ? & ? & -> & ->). exists node. split; [|done].
    apply list_elem_of_fmap. exists c. split; [done|].
    by apply list_elem_of_filter.
Qed.

Lemma append_cons x (a s : string) : String x a +:+ s = String x (a +:+ s).
Proof. reflexivity. Qed.

Lemma append_empty (s : string) : EmptyString +:+ s = s.
Proof. reflexivity. Qed.

(** The key of a pair determines the pair as long as the first components
    hold no separator. *)
Lemma linkKey_inj a b c d :
  containsSep a = false → containsSep c = false →
  linkKey a b = linkKey c d → a = c ∧ b = d.
Proof.
  unfold linkKey. revert c.
  induction a as [|x a IH]; intros [|y c]; simpl; intros Ha Hc Heq;
    rewrite ?append_cons, ?append_empty in Heq.
  - by injection Heq as ->.
  - injection Heq as <- _. by rewrite bool_decide_eq_true_2 in Hc.
  - injection Heq as -> _. by rewrite bool_decide_eq_true_2 in Ha.
  - injection Heq as -> Heq.
    apply orb_false_iff in Ha as [_ Ha]. apply orb_false_iff in Hc as [_ Hc].
    destruct (IH c Ha Hc Heq) as [-> ->]. done.
Qed.

(** On a node list whose ids hold no ["|"], the flag of every built link
    says exactly whether the reverse pair is in the pair set. *)
Lemma bidirectional_iff_reverse_pair width height rand data l :
  (∀ node, node ∈ data → containsSep (d_id node) = false) →
  l ∈ g_links (build width height rand data) →
  l_bidirectional l = true ↔ (l_target l, l_source l) ∈ pairSet data.
Proof.
  intros Hsep (node & c & Hnode & Hc & Hres & ->)%elem_of_build_links.
  simpl. rewrite bool_decide_eq_true, elem_of_mkLinkExistenceMap, elem_of_pairSet.
  split.
  - intros (node' & c' & Hn' & Hc' & Hh' & Hkey).
    apply has_build_nodeMap in Hh'.
    apply list_elem_of_fmap in Hres as (tgt & Htgt & Hin).
    apply linkKey_inj in Hkey as [? ?];
      [|rewrite Htgt; by apply Hsep|by apply Hsep].
    by exists node', c'.
  - intros (node' & c' & Hn' & Hc' & Hh' & -> & ->).
    exists node', c'. by rewrite has_build_nodeMap.
Qed.

(** *** Dangling choices *)

Lemma fmap_bind {A B C} (g : B → C) (f : A → list B) (l : list A) :
  g <$> (l ≫= f) = l ≫= λ x, g <$> f x.
Proof.
  induction l as [|x l IH]; [done|].
  by rewrite !bind_cons, fmap_app, IH.
Qed.

Lemma bind_nil_all {A B} (f : A → list B) (l : list A) :
  (∀ x, f x = []) → l ≫= f = [].
Proof.
  intros Hf. induction l as [|x l IH]; [done|].
  by rewrite bind_cons, Hf, IH.
Qed.

Lemma keepResolved_ids known data : ids (keepResolved known <$> data) = ids data.
Proof. unfold ids. rewrite <- list_fmap_compose. by apply list_fmap_ext. Qed.

Lemma keepResolved_mkNodesFrom width height rand k known data :
  mkNodesFrom width height rand k (keepResolved known <$> data)
  = mkNodesFrom width height rand k data.
Proof.
  revert k. induction data as [|d rest IH]; intros k; simpl; [done|].
  by rewrite IH.
Qed.

Lemma choicesOf_keepResolved known node :
  choicesOf (keepResolved known node)
  = filter (λ c, c_nextId c ∈ known) (choicesOf node).
Proof. unfold choicesOf. simpl. by destruct (d_choices node). Qed.

Section Resolved.
Variable nm : gmap string GraphNode.
Variable known : list string.
Hypothesis nm_known : ∀ k, has nm k = true ↔ k ∈ known.

Lemma addChoiceKey_keepResolved src (cs : list DialogueChoice) (s : gset string) :
  foldl (addChoiceKey nm src) s (filter (λ c, c_nextId c ∈ known) cs)
  = foldl (addChoiceKey nm src) s cs.
Proof using nm_known.
  revert s. induction cs as [|c cs IH]; intros s; [done|].
  rewrite filter_cons. simpl. case_decide as Hin.
  - simpl. apply IH.
  - rewrite IH. f_equal. unfold addChoiceKey.
    destruct (has nm (c_nextId c)) eqn:Hh; [|done].
    by apply nm_known in Hh.
Qed.

Lemma mkLinkExistenceMap_keepResolved data (s : gset string) :
  foldl (addNodeKeys nm) s (keepResolved known <$> data)
  = foldl (addNodeKeys nm) s data.
Proof using nm_known.
  revert s. induction data as [|d rest IH]; intros s; simpl; [done|].
  rewrite IH. f_equal. unfold addNodeKeys. simpl.
  destruct (d_choices d); simpl; [|done].
  apply addChoiceKey_keepResolved.
Qed.

Lemma filter_has_known (cs : list DialogueChoice) :
  filter (λ c, has nm (c_nextId c) = true) cs
  = filter (λ c, c_nextId c ∈ known) cs.
Proof using nm_known. apply list_filter_iff. intros c. apply nm_known. Qed.

Lemma filter_not_has_known (cs : list DialogueChoice) :
  filter (λ c, has nm (c_nextId c) ≠ true) cs
  = filter (λ c, c_nextId c ∉ known) cs.
Proof using nm_known.
  apply list_filter_iff. intros c. by rewrite nm_known.
Qed.

Lemma nodeLinks_keepResolved lem node :
  nodeLinks nm lem (keepResolved known node) = nodeLinks nm lem node.
Proof using nm_known.
  unfold nodeLinks. rewrite choicesOf_keepResolved. simpl.
  rewrite !filter_has_known. f_equal.
  rewrite list_filter_filter. apply list_filter_iff. naive_solver.
Qed.

Lemma nodeWarnings_keepResolved node :
  nodeWarnings nm (keepResolved known node) = [].
Proof using nm_known.
  unfold nodeWarnings. rewrite choicesOf_keepResolved, filter_not_has_known.
  rewrite list_filter_filter.
  induction (choicesOf node) as [|c cs IH]; [done|].
  rewrite filter_cons_False; [done|]. naive_solver.
Qed.
End Resolved.

Lemma build_links_resolved width height rand data l :
  l ∈ g_links (build width height rand data) → l_target l ∈ ids data.
Proof. by intros (node & c & _ & _ & Hres & ->)%elem_of_build_links. Qed.

Lemma build_endpoints width height rand data :
  endpoints <$> g_links (build width height rand data) = resolvedPairs data.
Proof.
  pose proof (has_build_nodeMap width height rand data) as Hnm.
  rewrite build_links. unfold resolvedPairs.
  rewrite fmap_bind. apply list_bind_ext; [|done]. intros node.
  unfold nodeLinks. rewrite <- list_fmap_compose.
  by rewrite (filter_has_known _ _ Hnm).
Qed.

Lemma build_trace_dangling width height rand data :
  g_trace (build width height rand data) = danglingWarnings data.
Proof.
  pose proof (has_build_nodeMap width height rand data) as Hnm.
  rewrite build_trace. unfold danglingWarnings.
  apply list_bind_ext; [|done]. intros node. unfold nodeWarnings.
  by rewrite (filter_not_has_known _ _ Hnm).
Qed.

Lemma mkNodes_dropDangling width height rand data :
  mkNodes width height rand (dropDangling data) = mkNodes width height rand data.
Proof. apply keepResolved_mkNodesFrom. Qed.

Lemma build_links_dropDangling width height rand data :
  g_links (build width height rand (dropDangling data))
  = g_links (build width height rand data).
Proof.
  pose proof (has_build_nodeMap width height rand data) as Hnm.
  rewrite !build_links, mkNodes_dropDangling.
  unfold mkLinkExistenceMap, dropDangling.
  rewrite (mkLinkExistenceMap_keepResolved _ _ Hnm).
  rewrite list_fmap_bind. apply list_bind_ext; [|done]. intros node. simpl.
  by rewrite (nodeLinks_keepResolved _ _ Hnm).
Qed.

Lemma build_trace_dropDangling width height rand data :
  g_trace (build width height rand (dropDangling data)) = [].
Proof.
  pose proof (has_build_nodeMap width height rand data) as Hnm.
  rewrite build_trace, mkNodes_dropDangling. unfold dropDangling.
  rewrite list_fmap_bind. apply bind_nil_all. intros node. simpl.
  apply (nodeWarnings_keepResolved _ _ Hnm).
Qed.

(** C2. A choice whose target is no node id pushes no link and records one
    warning; the links are, with source, target, label, flag and order, those
    built from the node list without its dangling choices. *)
Theorem dangling_choices_dropped width height rand data :
  (∀ l, l ∈ g_links (build width height rand data) → l_target l ∈ ids data)
  ∧ endpoints <$> g_links (build width height rand data) = resolvedPairs data
  ∧ g_trace (build width height rand data) = danglingWarnings data
  ∧ g_links (build width height rand data)
    = g_links (build width height rand (dropDangling data))
  ∧ g_trace (build width height rand (dropDangling data)) = [].
Proof.
  split; [intros l; apply build_links_resolved|].
  split; [apply build_endpoints|].
  split; [apply build_trace_dangling|].
  split; [symmetry; apply build_links_dropDangling|].
  apply build_trace_dropDangling.
Qed.

Lemma dangling_choices_dropped_witness :
  l_target (mkLink "a" "b" "go" true) ∈ ids mixedData
  ∧ g_links (build 800 600 (λ _, 0%R) mixedData)
    = [ mkLink "a" "b" "go" true; mkLink "b" "a" "back" true ]
  ∧ g_trace (build 800 600 (λ _, 0%R) mixedData)
    = [ ConsoleWarn "Missing target node: ghost" ].
Proof.
  destruct (dangling_choices_dropped 800 600 (λ _, 0%R) mixedData)
    as (Htarget & _ & Htrace & Hlinks & _).
  split; [|split].
  - apply (Htarget (mkLink "a" "b" "go" true)).
    apply list_elem_of_here.
  - rewrite Hlinks. reflexivity.
  - rewrite Htrace. reflexivity.
Defined.

End BuilderFacts.


(** ** Facts about the labels *)

Section LabelFacts.
Import Labels.

Lemma substring_take_length n (s : string) :
  n ≤ String.length s → String.length (String.substring 0 n s) = n.
Proof.
  revert s. induction n as [|n IH]; intros [|c s]; simpl; try lia.
  intros H. rewrite IH; lia.
Qed.

Lemma substring_take_prefix n (s : string) :
  ∃ rest, s = String.substring 0 n s +:+ rest.
Proof.
  revert s. induction n as [|n IH]; intros [|c s]; simpl.
  - by exists EmptyString.
  - by exists (String c s).
  - by exists EmptyString.
  - destruct (IH s) as [rest Hrest]. exists rest.
    rewrite append_cons. by rewrite <- Hrest.
Qed.

(** C4. A text of 26 characters or more is shown as its first 25 characters
    followed by ["..."], a text of at most 25 characters is shown as it is;
    the text on a node is in both cases put between quotes. *)
Theorem label_truncation (s : string) :
  (26 ≤ String.length s →
     linkText s = String.substring 0 25 s +:+ "..."
     ∧ nodeContentText s
       = quote +:+ String.substring 0 25 s +:+ "..." +:+ quote
     ∧ String.length (String.substring 0 25 s) = 25
     ∧ ∃ rest, s = String.substring 0 25 s +:+ rest)
  ∧ (String.length s ≤ 25 →
     linkText s = s ∧ nodeContentText s = quote +:+ s +:+ quote).
Proof.
  unfold linkText, nodeContentText. split; intros Hlen.
  - rewrite !decide_True by lia. repeat split.
    + apply substring_take_length. lia.
    + apply substring_take_prefix.
  - by rewrite !decide_False by lia.
Qed.

Lemma label_truncation_witness :
  (linkText "abcdefghijklmnopqrstuvwxyz" = "abcdefghijklmnopqrstuvwxy..."
   ∧ nodeContentText "abcdefghijklmnopqrstuvwxyz"
     = quote +:+ "abcdefghijklmnopqrstuvwxy..." +:+ quote)
  ∧ (linkText "abcdefghijklmnopqrstuvwxy" = "abcdefghijklmnopqrstuvwxy"
     ∧ nodeContentText "hi" = quote +:+ "hi" +:+ quote).
Proof.
  split.
  - destruct (proj1 (label_truncation "abcdefghijklmnopqrstuvwxyz"))
      as (H1 & H2 & _); [vm_compute; lia|].
    split; [exact H1 | exact H2].
  - split.
    + apply (proj2 (label_truncation "abcdefghijklmnopqrstuvwxy")).
      vm_compute; lia.
    + apply (proj2 (label_truncation "hi")). vm_compute; lia.
Defined.

End LabelFacts.

(** ** Facts about the viewer's effects and handlers *)

Section ViewerFacts.
Import Builder D3 Viewer.


Lemma renderGraph_skipped rand data repulsionForce st :
  data = [] ∨ (dimensions st).1 = 0%R →
  renderGraph rand data repulsionForce st = st.
Proof.
  unfold renderGraph. destruct (dimensions st) as [width height]. simpl.
  intros [->| ->].
  - done.
  - rewrite (bool_decide_eq_true_2 (0%R = 0%R)) by done.
    by rewrite orb_true_r.
Qed.

Lemma renderGraph_run rand data repulsionForce st :
  data ≠ [] → (dimensions st).1 ≠ 0%R →
  renderGraph rand data repulsionForce st
  = let g := build (dimensions st).1 (dimensions st).2 rand data in
    {| dimensions := dimensions st;
       simulationRef :=
         Some (forceCollide 80 2
                (forceCenter ((dimensions st).1 / 2) ((dimensions st).2 / 2)
                  (forceCharge (- repulsionForce)
                    (forceLink (g_links g) 250
                      (forceSimulation (g_nodes g))))));
       trace := trace st ++ g_trace g |}.
Proof.
  unfold renderGraph. destruct (dimensions st) as [width height]. simpl.
  intros Hd Hw. by rewrite !bool_decide_eq_false_2.
Qed.

Lemma danglingWarnings_console data :
  Forall (λ e, isConsoleWarn e = true) (danglingWarnings data).
Proof.
  apply Forall_forall. intros e.
  unfold danglingWarnings. rewrite list_elem_of_bind.
  by intros (node & (c & -> & _)%list_elem_of_fmap & _).
Qed.

(** C3, as the code has it. A render never calls [onError]: what it adds to
    the trace are console warnings, one for each dangling choice, and the
    render still sets up its simulation. *)
Theorem render_warns_on_console_only rand data repulsionForce st :
  ∃ logged,
    trace (renderGraph rand data repulsionForce st) = trace st ++ logged
    ∧ Forall (λ e, isConsoleWarn e = true) logged
    ∧ ¬ reportsToCaller logged
    ∧ (data ≠ [] → (dimensions st).1 ≠ 0%R →
       logged = danglingWarnings data
       ∧ is_Some (simulationRef (renderGraph rand data repulsionForce st))).
Proof.
  assert (Hno : ∀ evs, Forall (λ e, isConsoleWarn e = true) evs
                       → ¬ reportsToCaller evs).
  { intros evs Hall [e He]. rewrite Forall_forall in Hall.
    by specialize (Hall _ He). }
  destruct (decide (data = [])) as [Hd|Hd];
    [|destruct (decide ((dimensions st).1 = 0%R)) as [Hw|Hw]].
  - exists []. rewrite renderGraph_skipped by by left.
    rewrite app_nil_r. split; [done|]. split; [apply Forall_nil_2|]. split; [apply Hno, Forall_nil_2|done].
  - exists []. rewrite renderGraph_skipped by by right.
    rewrite app_nil_r. split; [done|]. split; [apply Forall_nil_2|]. split; [apply Hno, Forall_nil_2|done].
  - exists (danglingWarnings data). rewrite renderGraph_run by done.
    cbn [trace simulationRef]. rewrite build_trace_dangling.
    pose proof (danglingWarnings_console data).
    split; [done|]. split; [done|]. split; [by apply Hno|done].
Qed.

Lemma render_warns_on_console_only_witness :
  trace (renderGraph (λ _, 0%R) ghostData 1500 (freshState 800 600))
  = [ConsoleWarn "Missing target node: ghost"].
Proof.
  destruct (render_warns_on_console_only (λ _, 0%R) ghostData 1500
              (freshState 800 600)) as (logged & -> & _ & _ & Hrun).
  destruct Hrun as [-> _]; [done|simpl; lra|]. reflexivity.
Defined.

(** C3, as stated, at a node list with a dangling choice: the render leaves
    a warning on the console and reports nothing through [onError]. *)
Lemma ghost_not_reported :
  danglingWarnings ghostData ≠ []
  ∧ ¬ reportsToCaller
        (trace (renderGraph (λ _, 0%R) ghostData 1500 (freshState 800 600))).
Proof.
  split; [done|]. rewrite renderGraph_run by (simpl; (done || lra)).
  cbn [trace]. rewrite build_trace_dangling. intros [e He].
  apply list_elem_of_singleton in He. discriminate.
Qed.

(** C7. With a simulation in place, a new repulsion value sets alpha to 0.3
    and restarts the timer; the node array with its positions and the links
    stay as they are, only the charge force is replaced. *)
Theorem repulsion_change_reheats repulsionForce st sim :
  simulationRef st = Some sim →
  ∃ sim',
    simulationRef (updateForce repulsionForce st) = Some sim'
    ∧ sim_alpha sim' = 0.3%R
    ∧ sim_running sim' = true
    ∧ sim_charge sim' = Some (- repulsionForce)%R
    ∧ sim_nodes sim' = sim_nodes sim
    ∧ sim_link sim' = sim_link sim
    ∧ sim_center sim' = sim_center sim
    ∧ sim_collide sim' = sim_collide sim
    ∧ dimensions (updateForce repulsionForce st) = dimensions st
    ∧ trace (updateForce repulsionForce st) = trace st.
Proof.
  intros Href. unfold updateForce. rewrite Href.
  eexists. split; [reflexivity|]. by repeat split.
Qed.

Lemma repulsion_change_reheats_witness :
  ∃ sim',
    simulationRef (updateForce 5000 (mkState (800, 600)%R (Some idleSimulation) []))
    = Some sim'
    ∧ sim_alpha sim' = 0.3%R
    ∧ sim_running sim' = true
    ∧ sim_nodes sim' = sim_nodes idleSimulation
    ∧ sim_link sim' = sim_link idleSimulation.
Proof.
  destruct (repulsion_change_reheats 5000
              (mkState (800, 600)%R (Some idleSimulation) []) idleSimulation)
    as (sim' & H1 & H2 & H3 & _ & H5 & H6 & _); [reflexivity|].
  exists sim'. by repeat split.
Defined.

Lemma withNode_lookup i f sim :
  sim_nodes (withNode i f sim) !! i = f <$> sim_nodes sim !! i.
Proof. unfold withNode. simpl. apply list_lookup_alter_eq. Qed.

Lemma withNode_lookup_ne i j f sim :
  i ≠ j → sim_nodes (withNode i f sim) !! j = sim_nodes sim !! j.
Proof. intros. unfold withNode. simpl. by apply list_lookup_alter_ne. Qed.



(** Drag start and a repulsion change both call [restart], the first after
    setting the alpha target, the second after setting alpha itself. *)
Lemma dragstarted_reheats i simulation :
  sim_alphaTarget (dragstarted 0 i simulation) = 0.3%R
  ∧ sim_running (dragstarted 0 i simulation) = true
  ∧ sim_alpha (dragstarted 0 i simulation) = sim_alpha simulation.
Proof. by unfold dragstarted. Qed.

End ViewerFacts.

(** ** Facts about the geometry *)

Section GeometryFacts.
Import Builder D3 Viewer Geometry.
Local Open Scope R_scope.

Lemma sum_squares_nonneg dx dy : 0 <= dx * dx + dy * dy.
Proof. nra. Qed.

Lemma dist_zero_iff dx dy : sqrt (dx * dx + dy * dy) = 0 ↔ dx = 0 ∧ dy = 0.
Proof.
  split.
  - intros H. apply sqrt_eq_0 in H; [|apply sum_squares_nonneg]. nra.
  - intros [-> ->]. rewrite Rmult_0_l, Rplus_0_l. apply sqrt_0.
Qed.

Lemma centers_differ source target :
  center source ≠ center target →
  sqrt ((n_x target - n_x source) * (n_x target - n_x source)
        + (n_y target - n_y source) * (n_y target - n_y source)) ≠ 0.
Proof.
  intros Hne Hz. apply dist_zero_iff in Hz as [Hx Hy]. apply Hne.
  unfold center. f_equal; lra.
Qed.

Lemma unit_vector dx dy :
  sqrt (dx * dx + dy * dy) ≠ 0 →
  (dx / sqrt (dx * dx + dy * dy)) ^ 2 + (dy / sqrt (dx * dx + dy * dy)) ^ 2 = 1.
Proof.
  intros Hd.
  pose proof (sqrt_sqrt _ (sum_squares_nonneg dx dy)) as Hs.
  set (dist := sqrt (dx * dx + dy * dy)) in *.
  replace ((dx / dist) ^ 2 + (dy / dist) ^ 2)
    with ((dx * dx + dy * dy) / (dist * dist)) by (field; done).
  rewrite Hs. fold dist in Hd. field. intros Hz.
  apply Hd. unfold dist. rewrite Hz. apply sqrt_0.
Qed.

Lemma sqrt_le_bound x b : 0 <= b → x <= b * b → sqrt x <= b.
Proof.
  intros Hb Hx. rewrite <- (sqrt_square b Hb). by apply sqrt_le_1_alt.
Qed.

Lemma jitter_distance width height r1 r2 :
  0 <= r1 < 1 → 0 <= r2 < 1 →
  distance (width / 2 + (r1 - 0.5) * 50, height / 2 + (r2 - 0.5) * 50)
           (width / 2, height / 2) <= 50.
Proof.
  intros H1 H2. unfold distance. cbn [fst snd].
  apply sqrt_le_bound; [lra|]. nra.
Qed.

Lemma jitter_distance_diagonal width height r1 r2 :
  0 <= r1 < 1 → 0 <= r2 < 1 →
  distance (width / 2 + (r1 - 0.5) * 50, height / 2 + (r2 - 0.5) * 50)
           (width / 2, height / 2) <= sqrt 1250.
Proof.
  intros H1 H2. unfold distance. cbn [fst snd]. apply sqrt_le_1_alt. nra.
Qed.

Lemma div_nonzero a b : b ≠ 0 → div a b = Ok (a / b).
Proof. intros Hb. unfold div. by rewrite decide_False. Qed.

Lemma linkPath_coincident source target bidirectional :
  center source = center target →
  linkPath source target bidirectional = Ok [].
Proof.
  intros [= Hx Hy]. unfold linkPath. rewrite decide_True; [done|].
  apply dist_zero_iff. lra.
Qed.

Lemma linkPath_apart source target bidirectional :
  center source ≠ center target →
  ∃ ux uy,
    ux ^ 2 + uy ^ 2 = 1
    ∧ linkPath source target bidirectional
      = Ok (M (n_x source + ux * 28) (n_y source + uy * 28)
            :: if bidirectional
               then [A (sqrt ((n_x target - ux * 28 - (n_x source + ux * 28)) ^ 2
                              + (n_y target - uy * 28 - (n_y source + uy * 28)) ^ 2))
                       (sqrt ((n_x target - ux * 28 - (n_x source + ux * 28)) ^ 2
                              + (n_y target - uy * 28 - (n_y source + uy * 28)) ^ 2))
                       0 false false
                       (n_x target - ux * 28) (n_y target - uy * 28)]
               else [L (n_x target - ux * 28) (n_y target - uy * 28)]).
Proof.
  intros Hne. apply centers_differ in Hne.
  eexists _, _. split; [by apply unit_vector|].
  unfold linkPath. rewrite decide_False by done.
  rewrite !div_nonzero by done. by destruct bidirectional.
Qed.

Lemma linkPath_returns source target bidirectional :
  ∃ p, linkPath source target bidirectional = Ok p.
Proof.
  destruct (decide (center source = center target)) as [Heq|Hne].
  - exists []. by apply linkPath_coincident.
  - destruct (linkPath_apart _ _ bidirectional Hne) as (ux & uy & _ & ->).
    by eexists.
Qed.

(** C5. The path computation always returns: no division is made by a zero
    distance; on coincident end points the path is the empty one. *)
Theorem linkPath_total source target bidirectional :
  (∃ p, linkPath source target bidirectional = Ok p)
  ∧ (center source = center target →
     linkPath source target bidirectional = Ok []).
Proof. split; [apply linkPath_returns | apply linkPath_coincident]. Qed.

Lemma linkPath_total_witness :
  linkPath (mkNode "a" "Narrator" "hi" 3 4 0 0 None None)
           (mkNode "b" "Narrator" "bye" 3 4 0 0 None None) true = Ok [].
Proof.
  apply (proj2 (linkPath_total
                  (mkNode "a" "Narrator" "hi" 3 4 0 0 None None)
                  (mkNode "b" "Narrator" "bye" 3 4 0 0 None None) true)).
  reflexivity.
Defined.

Lemma mkNodesFrom_near_center width height rand k data n :
  (∀ j, 0 <= rand j < 1) →
  n ∈ mkNodesFrom width height rand k data →
  distance (center n) (width / 2, height / 2) <= 50.
Proof.
  intros Hrand. revert k. induction data as [|d rest IH]; intros k; simpl.
  - by intros ?%elem_of_nil.
  - intros [-> | Hin]%elem_of_cons; [|by eapply IH].
    unfold center, mkGraphNode. cbn [n_x n_y].
    by apply jitter_distance.
Qed.

(** C9. Whatever the draws in [0,1) are, every node starts within 50 units
    of the centre of the viewport. *)
Theorem initial_position_near_center width height rand data n :
  (∀ j, 0 <= rand j < 1) →
  n ∈ g_nodes (build width height rand data) →
  distance (center n) (width / 2, height / 2) <= 50.
Proof.
  intros Hrand Hn. unfold build, mkNodes in Hn. cbn [g_nodes] in Hn.
  by apply (mkNodesFrom_near_center _ _ rand 0%nat data).
Qed.

Lemma initial_position_near_center_witness :
  distance
    (center (mkGraphNode 800 600 (λ j, match j with O => 0 | _ => 0.75 end) 0
               (mkDialogue "a" None "hi" None)))
    (800 / 2, 600 / 2) <= 50.
Proof.
  apply (initial_position_near_center 800 600
           (λ j, match j with O => 0 | _ => 0.75 end)
           [mkDialogue "a" None "hi" None]).
  - intros [|j]; lra.
  - simpl. apply list_elem_of_singleton. reflexivity.
Defined.

End GeometryFacts.

(** ** Bidirectional flags: key collisions and self-loops *)

Section FlagFacts.
Import Builder D3 Viewer Geometry.

(** C1, on a node list with a ["|"] in an id. The only link goes from ["x"]
    to ["x|x"]; its key and the key of its reverse are the same string
    ["x|x|x"], so the link is flagged although the reverse pair is not in
    the pair set. *)
Theorem key_collision_flags_one_way_link width height rand :
  g_links (build width height rand collidingIds)
  = [ mkLink "x" "x|x" "go" true ]
  ∧ resolvedPairs collidingIds = [ ("x", "x|x") ]
  ∧ (("x|x", "x") ∉ pairSet collidingIds)
  ∧ linkKey "x" "x|x" = linkKey "x|x" "x".
Proof.
  split; [reflexivity|].
  assert (Hpairs : resolvedPairs collidingIds = [ ("x", "x|x") ])
    by (vm_compute; reflexivity).
  split; [exact Hpairs|]. split; [|reflexivity].
  unfold pairSet. rewrite Hpairs. set_solver.
Qed.

Lemma self_loop_link width height rand data node c :
  node ∈ data → c ∈ choicesOf node → c_nextId c = d_id node →
  mkLink (d_id node) (d_id node) (c_text c) true
    ∈ g_links (build width height rand data).
Proof.
  intros Hnode Hc Hself.
  assert (Hid : d_id node ∈ ids data)
    by (apply list_elem_of_fmap; by exists node).
  apply elem_of_build_links. exists node, c.
  split; [done|]. split; [done|]. split; [by rewrite Hself|].
  unfold linkOf. rewrite Hself. f_equal. symmetry.
  apply bool_decide_eq_true, elem_of_mkLinkExistenceMap.
  exists node, c. rewrite Hself, has_build_nodeMap. done.
Qed.

Lemma find_known nodes id :
  id ∈ (n_id <$> nodes) → ∃ n, find nodes id = Ok n.
Proof.
  intros Hin. apply has_mkNodeMap in Hin. unfold has in Hin.
  apply bool_decide_eq_true in Hin as [n Hn].
  exists n. unfold find. by rewrite Hn.
Qed.

Lemma tickLinkPath_self_loop simulation id label bidirectional :
  id ∈ (n_id <$> sim_nodes simulation) →
  tickLinkPath simulation (mkLink id id label bidirectional) = Ok [].
Proof.
  intros [n Hn]%find_known. unfold tickLinkPath. simpl. rewrite Hn. simpl.
  by apply linkPath_coincident.
Qed.

(** In a simulation over the built nodes every built link finds both its
    ends, so the tick computes a path for it. *)
Lemma tickLinkPath_total width height rand data simulation l :
  n_id <$> sim_nodes simulation
  = n_id <$> g_nodes (build width height rand data) →
  l ∈ g_links (build width height rand data) →
  ∃ p, tickLinkPath simulation l = Ok p.
Proof.
  intros Hids (node & c & Hnode & Hc & Hres & ->)%elem_of_build_links.
  assert (Hnodes : n_id <$> sim_nodes simulation = ids data).
  { rewrite Hids. unfold build, mkNodes. cbn [g_nodes].
    apply mkNodesFrom_ids. }
  destruct (find_known (sim_nodes simulation) (d_id node)) as [src Hsrc].
  { rewrite Hnodes. apply list_elem_of_fmap. by exists node. }
  destruct (find_known (sim_nodes simulation) (c_nextId c)) as [tgt Htgt].
  { by rewrite Hnodes. }
  unfold tickLinkPath, linkOf. cbn [l_source l_target l_bidirectional].
  rewrite Hsrc, Htgt. simpl. apply linkPath_returns.
Qed.

(** C10, as the code has it. A choice that leads back to its own node gives
    a link from the node to itself with [bidirectional = true]; both ends
    are the same node object, so in every tick its path is the empty one. *)
Theorem self_loop_flagged_and_empty width height rand data node c :
  node ∈ data → c ∈ choicesOf node → c_nextId c = d_id node →
  mkLink (d_id node) (d_id node) (c_text c) true
    ∈ g_links (build width height rand data)
  ∧ ∀ simulation,
      n_id <$> sim_nodes simulation
      = n_id <$> g_nodes (build width height rand data) →
      tickLinkPath simulation (mkLink (d_id node) (d_id node) (c_text c) true)
      = Ok [].
Proof.
  intros Hnode Hc Hself. split; [by apply self_loop_link|].
  intros simulation Hids. apply tickLinkPath_self_loop. rewrite Hids.
  unfold build, mkNodes. cbn [g_nodes]. rewrite mkNodesFrom_ids.
  apply list_elem_of_fmap. by exists node.
Qed.

Lemma self_loop_flagged_and_empty_witness :
  mkLink "a" "a" "again" true ∈ links selfLoopSimulation
  ∧ tickLinkPath selfLoopSimulation (mkLink "a" "a" "again" true) = Ok [].
Proof.
  destruct (self_loop_flagged_and_empty 800 600 (λ _, 0.5%R) selfLoopData
              (mkDialogue "a" None "hi" (Some [mkChoice "again" "a" None]))
              (mkChoice "again" "a" None)) as [Hlink Hpath].
  - apply list_elem_of_singleton. reflexivity.
  - apply list_elem_of_singleton. reflexivity.
  - reflexivity.
  - split; [exact Hlink|]. apply Hpath. reflexivity.
Defined.

(** C10, as stated, at [selfLoopData]: the self-loop is flagged, and what
    the tick computes for it is the empty path, not an arc. *)
Lemma self_loop_is_no_arc :
  links selfLoopSimulation = [ mkLink "a" "a" "again" true ]
  ∧ ¬ ∃ p, tickLinkPath selfLoopSimulation (mkLink "a" "a" "again" true) = Ok p
           ∧ isArc p = true.
Proof.
  split; [reflexivity|]. intros (p & Hp & Harc).
  rewrite tickLinkPath_self_loop in Hp.
  - injection Hp as <-. discriminate.
  - apply list_elem_of_singleton. reflexivity.
Qed.

End FlagFacts.

(** ** More facts about the graph builder *)

Section BuilderMore.

Lemma speakerOrDefault_nonempty s : speakerOrDefault s ≠ EmptyString.
Proof. by destruct s as [[|a s]|]. Qed.

Lemma mkNodesFrom_Forall2 width height rand k data :
  Forall2 (λ d n, ∃ j, n = mkGraphNode width height rand j d)
          data (mkNodesFrom width height rand k data).
Proof.
  revert k. induction data as [|d rest IH]; intros k; simpl;
    constructor; [by exists k | apply IH].
Qed.

(** X1. The node array mirrors the node list: same length and order, same
    id and text, the speaker kept when there is a non-empty one and
    ["Narrator"] otherwise (so never empty), no pin and no velocity. *)
Theorem nodes_mirror_data width height rand data :
  Forall2 (λ d n,
             n_id n = d_id d ∧ n_text n = d_text d
             ∧ n_speaker n
               = match d_speaker d with
                 | Some s => if decide (s = EmptyString) then "Narrator" else s
                 | None => "Narrator"
                 end
             ∧ n_speaker n ≠ EmptyString
             ∧ n_fx n = None ∧ n_fy n = None
             ∧ n_vx n = 0%R ∧ n_vy n = 0%R)
          data (g_nodes (build width height rand data)).
Proof.
  unfold build, mkNodes. cbn [g_nodes].
  eapply Forall2_impl; [apply mkNodesFrom_Forall2|].
  intros d n [j ->]. simpl. repeat split; try done.
  - by destruct (d_speaker d) as [[|a s]|].
  - apply speakerOrDefault_nonempty.
Qed.

Lemma has_layout_irrelevant width height rand width' height' rand' data k :
  has (mkNodeMap (mkNodes width height rand data)) k
  = has (mkNodeMap (mkNodes width' height' rand' data)) k.
Proof.
  destruct (has (mkNodeMap (mkNodes width height rand data)) k) eqn:H1,
           (has (mkNodeMap (mkNodes width' height' rand' data)) k) eqn:H2;
    try done.
  - apply has_build_nodeMap in H1.
    apply (has_build_nodeMap width' height' rand') in H1. congruence.
  - apply has_build_nodeMap in H2.
    apply (has_build_nodeMap width height rand) in H2. congruence.
Qed.

Lemma linkExistenceMap_layout_irrelevant width height rand width' height' rand' data :
  mkLinkExistenceMap (mkNodeMap (mkNodes width height rand data)) data
  = mkLinkExistenceMap (mkNodeMap (mkNodes width' height' rand' data)) data.
Proof.
  apply set_eq. intros k. rewrite !elem_of_mkLinkExistenceMap.
  split; intros (node & c & ? & ? & Hh & ?); exists node, c;
    (split; [done|]; split; [done|]; split; [|done]).
  - by rewrite (has_layout_irrelevant _ _ _ width height rand).
  - by rewrite (has_layout_irrelevant _ _ _ width' height' rand').
Qed.

(** X2. The links, with their flags and order, and the warnings depend on
    the node list only: not on the size of the viewport, not on the random
    draws. *)
Theorem links_independent_of_layout width height rand width' height' rand' data :
  g_links (build width height rand data)
  = g_links (build width' height' rand' data)
  ∧ g_trace (build width height rand data)
    = g_trace (build width' height' rand' data).
Proof.
  split; [|by rewrite !build_trace_dangling].
  rewrite !build_links.
  rewrite (linkExistenceMap_layout_irrelevant width height rand width' height' rand').
  apply list_bind_ext; [|done]. intros node. unfold nodeLinks.
  by rewrite (filter_has_known _ _ (has_build_nodeMap width height rand data)),
             (filter_has_known _ _ (has_build_nodeMap width' height' rand' data)).
Qed.

Lemma filter_split_length {A} (P : A → Prop) `{∀ x, Decision (P x)} (l : list A) :
  length (filter P l) + length (filter (λ x, ¬ P x) l) = length l.
Proof.
  rewrite <- length_app. apply Permutation_length, filter_app_complement.
Qed.

(** X3. No choice is lost: each one gives either a link or a warning, so
    the links and the warnings together are as many as the choices. *)
Theorem every_choice_link_or_warning width height rand data :
  length (g_links (build width height rand data))
  + length (g_trace (build width height rand data))
  = length (data ≫= choicesOf).
Proof.
  rewrite build_links, build_trace.
  generalize (mkLinkExistenceMap
                (mkNodeMap (mkNodes width height rand data)) data).
  generalize (mkNodeMap (mkNodes width height rand data)).
  intros nm lem. induction data as [|d rest IH]; [done|].
  rewrite !bind_cons, !length_app.
  unfold nodeLinks at 1, nodeWarnings at 1. rewrite !length_fmap.
  pose proof (filter_split_length
                (λ c, has nm (c_nextId c) = true) (choicesOf d)) as Hd.
  lia.
Qed.

Lemma reverse_link_flags width height rand data l l' :
  l ∈ g_links (build width height rand data) →
  l' ∈ g_links (build width height rand data) →
  l_source l' = l_target l → l_target l' = l_source l →
  l_bidirectional l = true.
Proof.
  intros (node & c & Hn & Hc & Hres & ->)%elem_of_build_links
         (node' & c' & Hn' & Hc' & Hres' & ->)%elem_of_build_links.
  simpl. intros Hs Ht.
  apply bool_decide_eq_true, elem_of_mkLinkExistenceMap.
  exists node', c'. rewrite has_build_nodeMap, Hs, Ht.
  split; [done|]. split; [done|]. split; [by rewrite <- Ht|done].
Qed.

(** X4. Whatever the ids are, two links that run between the same two
    nodes in opposite directions are both flagged bidirectional. *)
Theorem reverse_links_both_flagged width height rand data l l' :
  l ∈ g_links (build width height rand data) →
  l' ∈ g_links (build width height rand data) →
  l_source l' = l_target l → l_target l' = l_source l →
  l_bidirectional l = true ∧ l_bidirectional l' = true.
Proof.
  intros Hl Hl' Hs Ht. split.
  - by apply (reverse_link_flags width height rand data l l').
  - by apply (reverse_link_flags width height rand data l' l).
Qed.

Lemma reverse_links_both_flagged_witness :
  l_bidirectional (mkLink "a" "b" "go" true) = true
  ∧ l_bidirectional (mkLink "b" "a" "back" true) = true.
Proof.
  apply (reverse_links_both_flagged 800 600 (λ _, 0%R) mixedData).
  - apply list_elem_of_here.
  - apply list_elem_of_further, list_elem_of_here.
  - reflexivity.
  - reflexivity.
Defined.

(** X5. When no node id holds a ["|"], a link is flagged only if the link
    in the opposite direction was built too, and that one is flagged as
    well: flagged links come in pairs (a self-loop being its own pair). *)
Theorem flagged_links_come_in_pairs width height rand data l :
  (∀ node, node ∈ data → containsSep (d_id node) = false) →
  l ∈ g_links (build width height rand data) →
  l_bidirectional l = true →
  ∃ l', l' ∈ g_links (build width height rand data)
        ∧ l_source l' = l_target l ∧ l_target l' = l_source l
        ∧ l_bidirectional l' = true.
Proof.
  intros Hsep Hl Hflag.
  apply (bidirectional_iff_reverse_pair _ _ _ _ _ Hsep Hl) in Hflag.
  apply elem_of_pairSet in Hflag as (node' & c' & Hn' & Hc' & Hres' & Hs & Ht).
  set (lem := mkLinkExistenceMap
                (mkNodeMap (mkNodes width height rand data)) data).
  assert (Hl' : linkOf lem (d_id node') c'
                ∈ g_links (build width height rand data)).
  { apply elem_of_build_links. by exists node', c'. }
  exists (linkOf lem (d_id node') c').
  split; [done|]. split; [done|]. split; [done|].
  by apply (reverse_link_flags width height rand data _ l).
Qed.

Lemma flagged_links_come_in_pairs_witness :
  ∃ l', l' ∈ g_links (build 800 600 (λ _, 0%R) mixedData)
        ∧ l_source l' = "b" ∧ l_target l' = "a"
        ∧ l_bidirectional l' = true.
Proof.
  apply (flagged_links_come_in_pairs 800 600 (λ _, 0%R) mixedData
           (mkLink "a" "b" "go" true)).
  - intros node Hnode.
    apply elem_of_cons in Hnode as [-> | Hnode]; [reflexivity|].
    apply list_elem_of_singleton in Hnode as ->. reflexivity.
  - apply list_elem_of_here.
  - reflexivity.
Defined.

Lemma mkNodeMap_foldl_lookup (nodes : list GraphNode) (m : gmap string GraphNode) k :
  foldl (λ m n, <[n_id n := n]> m) m nodes !! k
  = match last (filter (λ n, n_id n = k) nodes) with
    | Some n => Some n
    | None => m !! k
    end.
Proof.
  revert m. induction nodes as [|n rest IH]; intros m; simpl; [done|].
  rewrite IH, filter_cons. case_decide as Hk.
  - rewrite last_cons.
    destruct (last (filter (λ n0, n_id n0 = k) rest)); [done|].
    by rewrite Hk, lookup_insert_eq.
  - destruct (last (filter (λ n0, n_id n0 = k) rest)); [done|].
    by rewrite lookup_insert_ne.
Qed.

(** X6. A lookup in the node map gives the last node of the array that
    carries the id, and nothing when no node carries it: of two nodes with
    the same id the later one replaces the earlier. *)
Theorem nodeMap_last_wins (nodes : list GraphNode) k :
  mkNodeMap nodes !! k = last (filter (λ n, n_id n = k) nodes).
Proof.
  unfold mkNodeMap. rewrite mkNodeMap_foldl_lookup, lookup_empty.
  by destruct (last _).
Qed.

End BuilderMore.

(** ** More facts about the viewer's effects and handlers *)

Section ViewerMore.

(** X9. Of two repulsion changes in a row only the last one shows; without
    a simulation a change does nothing. *)
Theorem updateForce_last_wins r1 r2 st :
  updateForce r2 (updateForce r1 st) = updateForce r2 st
  ∧ (simulationRef st = None → updateForce r1 st = st).
Proof.
  unfold updateForce. destruct (simulationRef st) as [sim|] eqn:Href; simpl.
  - split; [reflexivity|done].
  - rewrite Href. split; reflexivity.
Qed.

Lemma updateForce_last_wins_witness :
  updateForce 5000 (freshState 800 600) = freshState 800 600.
Proof.
  apply (proj2 (updateForce_last_wins 5000 1500 (freshState 800 600))).
  reflexivity.
Defined.






(** X12. While a node is dragged the position update holds it: after drag
    start it stays where it was, after a move of the pointer it is put at
    the pointer, in both cases with its velocity set to zero. *)
Theorem dragged_node_follows_pointer active x y i simulation d velocityDecay :
  sim_nodes simulation !! i = Some d →
  (∃ d', sim_nodes (dragstarted active i simulation) !! i = Some d'
         ∧ center (stepPosition velocityDecay d') = center d
         ∧ n_vx (stepPosition velocityDecay d') = 0%R
         ∧ n_vy (stepPosition velocityDecay d') = 0%R)
  ∧ (∃ d', sim_nodes (dragged x y i simulation) !! i = Some d'
           ∧ center (stepPosition velocityDecay d') = (x, y)
           ∧ n_vx (stepPosition velocityDecay d') = 0%R
           ∧ n_vy (stepPosition velocityDecay d') = 0%R).
Proof.
  intros Hd.
  assert (Hn : ∀ s, sim_nodes (if decide (active = 0)
                               then restart (alphaTarget 0.3 s) else s)
                    = sim_nodes s) by (intros s; by case_decide).
  split.
  - eexists. split.
    + unfold dragstarted. by rewrite withNode_lookup, Hn, Hd.
    + by repeat split.
  - eexists. split.
    + unfold dragged. by rewrite withNode_lookup, Hd.
    + by repeat split.
Qed.

Lemma dragged_node_follows_pointer_witness :
  ∃ d', sim_nodes (dragged 100 100 0 idleSimulation) !! 0 = Some d'
        ∧ center (stepPosition 0.6 d') = (100, 100)%R.
Proof.
  destruct (dragged_node_follows_pointer 0 100 100 0 idleSimulation
              (mkNode "a" "Narrator" "hi" 10 20 0 0 None None) 0.6)
    as [_ (d' & H1 & H2 & _)]; [reflexivity|].
  exists d'. split; [exact H1 | exact H2].
Defined.

End ViewerMore.

(** ** More facts about the geometry *)

Section GeometryMore.
Local Open Scope R_scope.

Lemma dist_as_distance source target :
  sqrt ((n_x target - n_x source) * (n_x target - n_x source)
        + (n_y target - n_y source) * (n_y target - n_y source))
  = distance (center target) (center source).
Proof. unfold distance, center. cbn [fst snd]. f_equal. ring. Qed.

Lemma distance_sym p q : distance p q = distance q p.
Proof. unfold distance. f_equal. ring. Qed.

Lemma distance_apart source target :
  center source ≠ center target →
  distance (center target) (center source) ≠ 0.
Proof. intros H. rewrite <- dist_as_distance. by apply centers_differ. Qed.

(** The path between two nodes at different positions, written out. *)
Lemma linkPath_explicit source target bidirectional :
  center source ≠ center target →
  let D := distance (center target) (center source) in
  let ax := n_x source + (n_x target - n_x source) / D * 28 in
  let ay := n_y source + (n_y target - n_y source) / D * 28 in
  let ex := n_x target - (n_x target - n_x source) / D * 28 in
  let ey := n_y target - (n_y target - n_y source) / D * 28 in
  linkPath source target bidirectional
  = Ok (M ax ay
        :: if bidirectional
           then [A (distance (ex, ey) (ax, ay)) (distance (ex, ey) (ax, ay))
                   0 false false ex ey]
           else [L ex ey]).
Proof.
  intros Hne. pose proof (centers_differ _ _ Hne) as Hd.
  unfold linkPath. rewrite decide_False by done.
  rewrite !div_nonzero by done. rewrite dist_as_distance.
  by destruct bidirectional.
Qed.



(** X15. The two links of a pair meet the boundaries of their nodes in the
    same two points: the path from A to B starts where the path from B to
    A ends, and ends where that one starts. *)
Theorem pair_paths_share_ends source target bidirectional bidirectional' :
  center source ≠ center target →
  ∃ p q a e,
    linkPath source target bidirectional = Ok p
    ∧ linkPath target source bidirectional' = Ok q
    ∧ pathStart p = Some a ∧ pathEnd p = Some e
    ∧ pathStart q = Some e ∧ pathEnd q = Some a.
Proof.
  intros Hne.
  assert (Hne' : center target ≠ center source) by congruence.
  rewrite (linkPath_explicit _ _ _ Hne), (linkPath_explicit _ _ _ Hne').
  cbv zeta. rewrite (distance_sym (center source) (center target)).
  pose proof (distance_apart _ _ Hne) as HD.
  eexists _, _, (_, _), (_, _). split; [reflexivity|]. split; [reflexivity|].
  split; [reflexivity|]. split; [by destruct bidirectional|].
  split.
  - unfold pathStart. simpl. f_equal. f_equal; field; done.
  - destruct bidirectional'; unfold pathEnd; simpl; f_equal; f_equal;
      field; done.
Qed.

Lemma pair_paths_share_ends_witness :
  ∃ p q a e,
    linkPath (mkNode "a" "Narrator" "hi" 0 0 0 0 None None)
             (mkNode "b" "Narrator" "bye" 300 400 0 0 None None) true = Ok p
    ∧ linkPath (mkNode "b" "Narrator" "bye" 300 400 0 0 None None)
               (mkNode "a" "Narrator" "hi" 0 0 0 0 None None) true = Ok q
    ∧ pathStart p = Some a ∧ pathEnd p = Some e
    ∧ pathStart q = Some e ∧ pathEnd q = Some a.
Proof.
  apply (pair_paths_share_ends
           (mkNode "a" "Narrator" "hi" 0 0 0 0 None None)
           (mkNode "b" "Narrator" "bye" 300 400 0 0 None None) true true).
  unfold center. simpl. intros [= H _]. lra.
Defined.

(** X18. On coincident end points (a self-loop, or two nodes on one spot)
    the distance is replaced by 1, nothing is divided by zero, and the label
    is anchored on the common centre. *)
Theorem label_anchor_coincident source target bidirectional :
  center source = center target →
  labelAnchor source target bidirectional = Ok (center source).
Proof.
  intros [= Hx Hy]. unfold labelAnchor, Anchor.linkTextX, Anchor.linkTextY.
  assert (Hz : sqrt ((n_x target - n_x source) * (n_x target - n_x source)
                     + (n_y target - n_y source) * (n_y target - n_y source))
               = 0) by (apply dist_zero_iff; lra).
  rewrite Hz. unfold Anchor.orOne. rewrite decide_True by done.
  rewrite !div_nonzero by lra. simpl. unfold center. rewrite Hx, Hy.
  f_equal. f_equal; field.
Qed.

Lemma label_anchor_coincident_witness :
  labelAnchor (mkNode "a" "Narrator" "hi" 3 4 0 0 None None)
              (mkNode "a" "Narrator" "hi" 3 4 0 0 None None) true
  = Ok (3, 4).
Proof.
  apply (label_anchor_coincident
           (mkNode "a" "Narrator" "hi" 3 4 0 0 None None)
           (mkNode "a" "Narrator" "hi" 3 4 0 0 None None) true).
  reflexivity.
Defined.

End GeometryMore.

(** ** More facts about the labels *)

Section LabelMore.

Lemma append_length (a b : string) :
  String.length (a +:+ b) = String.length a + String.length b.
Proof.
  induction a as [|x a IH]; [done|].
  rewrite append_cons. simpl. by rewrite IH.
Qed.

Lemma substring_take_app n (a b : string) :
  String.length a = n → String.substring 0 n (a +:+ b) = a.
Proof.
  revert a. induction n as [|n IH]; intros [|x a] Hlen;
    try discriminate Hlen.
  - rewrite append_empty. by destruct b.
  - injection Hlen as Hlen. rewrite append_cons. simpl. by rewrite IH.
Qed.

(** X19. What is shown of a text is short: a link label has at most 28
    characters and the text on a node at most 30, the two quotes included;
    cutting a label that is already cut changes nothing. *)
Theorem shown_text_is_short (s : string) :
  String.length (linkText s) ≤ 28
  ∧ String.length (nodeContentText s) ≤ 30
  ∧ linkText (linkText s) = linkText s.
Proof.
  unfold linkText, nodeContentText.
  destruct (decide (25 < String.length s)) as [Hlong|Hshort].
  - pose proof (substring_take_length 25 s ltac:(lia)) as Hlen.
    rewrite !append_length, Hlen. simpl.
    split; [lia|]. split; [lia|].
    by rewrite substring_take_app.
  - rewrite !append_length. simpl. split; [lia|]. split; [lia|].
    by rewrite decide_False.
Qed.

End LabelMore.

(** ** Facts about the parse effect of [App] *)

Section AppFacts.

Lemma checkNode_None index node :
  App.checkNode index node = None ↔ App.wellFormed node.
Proof.
  unfold App.wellFormed. split.
  - destruct node as [m|[|id] [|text]]; simpl; try done. by exists id, text.
  - by intros (id & text & ->).
Qed.

Lemma forEachFrom_None index items :
  App.forEachFrom index items = None ↔ Forall App.wellFormed items.
Proof.
  revert index. induction items as [|node rest IH]; intros index; simpl.
  - split; [by constructor|done].
  - rewrite Forall_cons, <- (IH (S index)), <- (checkNode_None index).
    destruct (App.checkNode index node); naive_solver.
Qed.

Lemma forEachFrom_first index pre node post :
  Forall App.wellFormed pre →
  App.forEachFrom index (pre ++ node :: post)
  = match App.checkNode (index + length pre) node with
    | Some message => Some message
    | None => App.forEachFrom (S (index + length pre)) post
    end.
Proof.
  intros Hpre. revert index.
  induction Hpre as [|x pre Hx Hpre IH]; intros index; simpl.
  - by rewrite Nat.add_0_r.
  - apply (checkNode_None index) in Hx. rewrite Hx, IH.
    by replace (S index + length pre) with (index + S (length pre)) by lia.
Qed.

(** X20. The parse effect clears the error exactly when what was loaded is
    an array whose items all have a truthy [id] and a truthy [text]; the
    array is then the new node list. *)
Theorem parse_accepts_well_formed loaded st :
  App.error (App.parseEffect loaded st) = None
  ↔ ∃ items, loaded = App.Items items
             ∧ Forall App.wellFormed items
             ∧ App.parsedData (App.parseEffect loaded st) = items.
Proof.
  unfold App.parseEffect, App.tryParse. split.
  - destruct loaded as [m| |items]; simpl; try done.
    destruct (App.forEachFrom 0 items) eqn:Hcheck; simpl; [done|].
    intros _. exists items. by apply forEachFrom_None in Hcheck.
  - intros (items & -> & Hall & _). apply (forEachFrom_None 0) in Hall.
    by rewrite Hall.
Qed.

(** X21. When the parse effect fails (the loader throws, the root is no
    array, or an item fails a check), the node list stays the one shown
    before, the error is a non-empty message, and the message thrown goes
    to the console. *)
Theorem parse_failure_keeps_data loaded st :
  App.error (App.parseEffect loaded st) ≠ None →
  App.parsedData (App.parseEffect loaded st) = App.parsedData st
  ∧ (∃ message, App.error (App.parseEffect loaded st) = Some message
                ∧ message ≠ EmptyString)
  ∧ length (App.console (App.parseEffect loaded st))
    = S (length (App.console st)).
Proof.
  unfold App.parseEffect. destruct (App.tryParse loaded) as [m|parsed]; simpl;
    [|done].
  intros _. split; [done|]. split.
  - eexists. split; [done|]. by case_decide.
  - rewrite length_app. simpl. lia.
Qed.

Lemma parse_failure_keeps_data_witness :
  App.parsedData
    (App.parseEffect App.NotArray
       (App.mkState [App.Obj (App.Truthy "a") (App.Truthy "hi")] None true 1500 []))
  = [App.Obj (App.Truthy "a") (App.Truthy "hi")].
Proof.
  apply (parse_failure_keeps_data App.NotArray
           (App.mkState [App.Obj (App.Truthy "a") (App.Truthy "hi")]
              None true 1500 [])).
  simpl. discriminate.
Defined.

(** X22. The error names the first item that fails a check, by its index
    when the [id] is missing and by its [id] when only the [text] is; the
    [id] is checked first. *)
Theorem first_offender_reported pre id text post st :
  Forall App.wellFormed pre →
  App.error (App.parseEffect
               (App.Items (pre ++ App.Obj App.Falsy text :: post)) st)
  = Some ("Node at index " +:+ pretty (length pre) +:+ " is missing 'id'")
  ∧ App.error (App.parseEffect
                 (App.Items (pre ++ App.Obj (App.Truthy id) App.Falsy :: post)) st)
    = Some ("Node '" +:+ id +:+ "' is missing 'text'").
Proof.
  intros Hpre. unfold App.parseEffect, App.tryParse.
  rewrite !forEachFrom_first by done. simpl. split; f_equal.
Qed.

Lemma first_offender_reported_witness :
  App.error
    (App.parseEffect
       (App.Items [App.Obj (App.Truthy "a") (App.Truthy "hi");
                   App.Obj App.Falsy (App.Truthy "bye")])
       (App.mkState [] None true 1500 []))
  = Some "Node at index 1 is missing 'id'".
Proof.
  apply (first_offender_reported
           [App.Obj (App.Truthy "a") (App.Truthy "hi")] "b" (App.Truthy "bye") []
           (App.mkState [] None true 1500 [])).
  apply Forall_cons. split; [by exists "a", "hi" | apply Forall_nil_2].
Defined.

End AppFacts.

(** ** Ticks after a render *)

Section TickFacts.

(** X23. Every link the builder made finds both its ends among the nodes
    of the simulation, whatever their positions have become, so a tick
    computes a path for it and never fails with a node that is not found. *)
Theorem built_links_always_resolve width height rand data simulation l :
  n_id <$> sim_nodes simulation
  = n_id <$> g_nodes (build width height rand data) →
  l ∈ g_links (build width height rand data) →
  ∃ p, tickLinkPath simulation l = Ok p.
Proof. apply tickLinkPath_total. Qed.

Lemma built_links_always_resolve_witness :
  ∃ p, tickLinkPath selfLoopSimulation (mkLink "a" "a" "again" true) = Ok p.
Proof.
  apply (built_links_always_resolve 800 600 (λ _, 0.5%R) selfLoopData
           selfLoopSimulation).
  - reflexivity.
  - apply list_elem_of_here.
Defined.

End TickFacts.

(** ** The boundary offset in binary64 *)

Module Binary64Facts.
Import PrimFloat.




End Binary64Facts.

(** ** The boundary offset under rounding *)

Section RoundedFacts.
Local Open Scope R_scope.

Variable rnd : R → R.
Variable pow2 : R → R.
Variable u : R.
Hypothesis u_range : 0 <= u < 1.
Hypothesis rnd_error : ∀ x, Rabs (rnd x - x) <= u * Rabs x.




Lemma rnd_zero : rnd 0 = 0.
Proof using rnd_error.
  pose proof (rnd_error 0) as H. rewrite Rabs_R0, Rmult_0_r in H.
  rewrite Rminus_0_r in H. pose proof (Rabs_pos (rnd 0)).
  destruct (Req_dec (rnd 0) 0) as [|Hne]; [done|].
  apply Rabs_pos_lt in Hne. lra.
Qed.









End RoundedFacts.

Section RoundedWitness.
Local Open Scope R_scope.

(** With nothing rounded the callback is [Geometry.linkPath]. *)
Lemma rounded_exact source target bidirectional :
  Rounded.linkPath (λ x, x) (λ x, x ^ 2) source target bidirectional
  = linkPath source target bidirectional.
Proof. reflexivity. Qed.


End RoundedWitness.

(** ** Facts about the render effect with its cleanup *)

Section LifecycleFacts.

(** X7. When the node list becomes empty, or the width zero, after a render
    that set up a simulation, the next run of the effect stops that
    simulation through the cleanup and then returns at the guard: the
    stopped simulation stays in [simulationRef], nothing is logged, and no
    cleanup is left. A later change of the repulsion starts this
    simulation again, on the old nodes, with alpha at 0.3. *)
Theorem emptied_data_stops_simulation rand data repulsionForce m sim :
  simulationRef (Lifecycle.state m) = Some sim →
  Lifecycle.cleanupPending m = true →
  data = [] ∨ (dimensions (Lifecycle.state m)).1 = 0%R →
  simulationRef
    (Lifecycle.state (Lifecycle.renderEffect rand data repulsionForce m))
  = Some (stop sim)
  ∧ sim_running (stop sim) = false
  ∧ trace (Lifecycle.state (Lifecycle.renderEffect rand data repulsionForce m))
    = trace (Lifecycle.state m)
  ∧ Lifecycle.cleanupPending
      (Lifecycle.renderEffect rand data repulsionForce m) = false
  ∧ ∀ r, ∃ sim',
      simulationRef
        (updateForce r
           (Lifecycle.state
              (Lifecycle.renderEffect rand data repulsionForce m)))
      = Some sim'
      ∧ sim_running sim' = true
      ∧ sim_alpha sim' = 0.3%R
      ∧ sim_nodes sim' = sim_nodes sim
      ∧ sim_link sim' = sim_link sim.
Proof.
  intros Href Hpending Hguard. unfold Lifecycle.renderEffect.
  rewrite Hpending. cbn [Lifecycle.state Lifecycle.cleanupPending].
  assert (Hguard' : data = [] ∨ (dimensions (Lifecycle.cleanup (Lifecycle.state m))).1 = 0%R)
    by done.
  rewrite (renderGraph_skipped _ _ _ _ Hguard').
  unfold Lifecycle.cleanup. cbn [simulationRef trace dimensions].
  rewrite Href. simpl.
  split; [done|]. split; [done|]. split; [done|]. split.
  - destruct Hguard as [-> | ->]; [done|].
    rewrite (bool_decide_eq_true_2 (0%R = 0%R)) by done.
    by rewrite orb_true_r.
  - intros r. eexists. unfold updateForce. simpl. by repeat split.
Qed.

Lemma emptied_data_stops_simulation_witness :
  simulationRef
    (Lifecycle.state
       (Lifecycle.renderEffect (λ _, 0%R) [] 1500
          (Lifecycle.mkMounted
             (mkState (800, 600)%R (Some (restart idleSimulation)) []) true)))
  = Some (stop (restart idleSimulation)).
Proof.
  apply (emptied_data_stops_simulation (λ _, 0%R) [] 1500
           (Lifecycle.mkMounted
              (mkState (800, 600)%R (Some (restart idleSimulation)) []) true)
           (restart idleSimulation)).
  - reflexivity.
  - reflexivity.
  - left. reflexivity.
Defined.

End LifecycleFacts.
